(** * generate_pornsite.py: the rule-list generator, embedded and verified

    A shallow embedding of [scripts/generate_pornsite.py]: the text helpers
    the script takes from Python's [str] ([strip], [startswith], [lower],
    [in], [split], [splitlines], [join]), the line transformer [transform],
    the include resolver [load_all] and the aggregator/writer [main].

    Text model.  A Python [str] is a sequence of code points; here a
    character is an [ascii], read as the code point of the same number
    (U+0000 .. U+00FF), and a [str] is a [string].  [isspace], [is_linebreak]
    and [lower_char] are Python's tables restricted to that range.  The data
    set the script reads is made of ASCII domain names. *)

From Stdlib Require Import Ascii String NArith List.
From stdpp Require Import gmap strings list fin_maps.


(** ** Python's [str] helpers *)

Module PyStr.

Definition code (c : ascii) : N := N_of_ascii c.

(** [str.isspace] for one character: TAB..CR, FS..US, SPACE, NEL, NBSP. *)
Definition isspace (c : ascii) : bool :=
  let n := code c in
  ((9 <=? n) && (n <=? 13) || (28 <=? n) && (n <=? 32)
   || (n =? 133) || (n =? 160))%N.

(** The line boundaries of [str.splitlines]: LF, VT, FF, CR, FS, GS, RS, NEL. *)
Definition is_linebreak (c : ascii) : bool :=
  let n := code c in
  ((10 <=? n) && (n <=? 13) || (28 <=? n) && (n <=? 30) || (n =? 133))%N.

(** [str.lower] for one character: A-Z and the Latin-1 capitals. *)
Definition lower_char (c : ascii) : ascii :=
  let n := code c in
  if ((65 <=? n) && (n <=? 90)
      || (192 <=? n) && (n <=? 222) && negb (n =? 215))%N
  then ascii_of_N (n + 32) else c.

Fixpoint lower (s : string) : string :=
  match s with
  | EmptyString => EmptyString
  | String c s' => String (lower_char c) (lower s')
  end.

Fixpoint lstrip (s : string) : string :=
  match s with
  | EmptyString => EmptyString
  | String c s' => if isspace c then lstrip s' else s
  end.

Fixpoint rstrip (s : string) : string :=
  match s with
  | EmptyString => EmptyString
  | String c s' =>
      match rstrip s' with
      | EmptyString => if isspace c then EmptyString else String c EmptyString
      | r => String c r
      end
  end.

(** [s.strip()] *)
Definition strip (s : string) : string := rstrip (lstrip s).

(** [s.startswith(p)] *)
Fixpoint startswith (s p : string) {struct p} : bool :=
  match p, s with
  | EmptyString, _ => true
  | String _ _, EmptyString => false
  | String a p', String b s' => Ascii.eqb a b && startswith s' p'
  end.

(** [sub in s] *)
Fixpoint contains (sub s : string) : bool :=
  startswith s sub ||
  match s with
  | EmptyString => false
  | String _ s' => contains sub s'
  end.

(** [not s]: the empty string is the only falsy one. *)
Definition is_empty (s : string) : bool :=
  match s with EmptyString => true | String _ _ => false end.

(** [s.split(sep, 1)] for a one-character separator: one or two pieces. *)
Fixpoint split1 (sep : ascii) (s : string) : list string :=
  match s with
  | EmptyString => [EmptyString]
  | String c s' =>
      if Ascii.eqb c sep then [EmptyString; s']
      else match split1 sep s' with
           | h :: t => String c h :: t
           | [] => [String c EmptyString]
           end
  end.

(** [pieces[1]].  Python raises IndexError when there is one piece only; the
    script indexes only after [startswith] has found the separator
    ([split1_startswith] below), so the default is never taken. *)
Definition item1 (pieces : list string) : string :=
  default EmptyString (pieces !! 1%nat).

(** [s.splitlines()]: CR LF counts as one boundary, and a final boundary
    opens no further line. *)
Fixpoint splitlines (s : string) : list string :=
  match s with
  | EmptyString => []
  | String c s' =>
      if is_linebreak c then
        match s' with
        | String d s'' =>
            if Ascii.eqb c "013" && Ascii.eqb d "010"
            then EmptyString :: splitlines s''
            else EmptyString :: splitlines s'
        | EmptyString => [EmptyString]
        end
      else match splitlines s' with
           | l :: ls => String c l :: ls
           | [] => [String c EmptyString]
           end
  end.

(** [sep.join(pieces)] *)
Fixpoint join (sep : string) (pieces : list string) : string :=
  match pieces with
  | [] => EmptyString
  | [p] => p
  | p :: ps => p +:+ sep +:+ join sep ps
  end.

(** Two side conditions of the lemmas on [strip], not used by the script.
    [ends_nonspace sub]: [sub] is not empty and its last character is not
    white space. *)
Fixpoint ends_nonspace (sub : string) : bool :=
  match sub with
  | EmptyString => false
  | String a EmptyString => negb (isspace a)
  | String _ sub' => ends_nonspace sub'
  end.

Definition begins_nonspace (sub : string) : bool :=
  match sub with
  | EmptyString => false
  | String a _ => negb (isspace a)
  end.

End PyStr.
Import PyStr.

(** ** The line transformer *)

Definition EXCLUDED : string := "ehentai".

(** [transform(line)]: [None] drops the line, [Some r] is the rule. *)
Definition transform (line : string) : option string :=
  let l := strip line in
  if is_empty l || startswith l "#" then None
  else if startswith l "include:" then None
  else if startswith l "regexp:" then None
  else if contains EXCLUDED (lower l) then None
  else if startswith l "full:" then
    let v := strip (item1 (split1 ":" l)) in
    if contains "." v then Some ("DOMAIN," +:+ v)
    else Some ("DOMAIN-KEYWORD," +:+ v)
  else
    let v := l in
    if contains "." v then Some ("DOMAIN-SUFFIX," +:+ v)
    else Some ("DOMAIN-KEYWORD," +:+ v).

(** ** The include resolver *)

Definition START : string := "category-porn".

(** The Source Reader, in either mode: [read_local] and [fetch_remote] both
    give the text of a file of the data set and [''] for a name they cannot
    read, so the data set is a finite map and a missing name reads as empty. *)
Definition read_source (fs : gmap string string) (name : string) : string :=
  default "" (fs !! name).

(** The state of [load_all]'s loop.  [reads] is not a variable of the script:
    it logs the calls of the Source Reader, in order. *)
Record loader := Loader {
  queue : list string;
  seen : gset string;
  contents : gmap string string;
  reads : list string
}.

(** One turn of [for line in txt.splitlines()] in [load_all]. *)
Definition scan_line (seen : gset string) (queue : list string) (line : string)
  : list string :=
  let line := strip line in
  if startswith line "include:" then
    let inc := strip (item1 (split1 ":" line)) in
    if negb (is_empty inc) && negb (contains EXCLUDED (lower inc))
       && bool_decide (inc ∉ seen)
    then queue ++ [inc] else queue
  else queue.

Fixpoint scan (seen : gset string) (lines : list string) (queue : list string)
  : list string :=
  match lines with
  | [] => queue
  | line :: rest => scan seen rest (scan_line seen queue line)
  end.

(** [while queue: ...], one unit of fuel per turn; [None] is out of fuel. *)
Fixpoint load_loop (fs : gmap string string) (fuel : nat) (st : loader)
  {struct fuel} : option loader :=
  match queue st with
  | [] => Some st
  | name :: rest =>
      match fuel with
      | O => None
      | S fuel' =>
          if bool_decide (name ∈ seen st) then
            load_loop fs fuel' (Loader rest (seen st) (contents st) (reads st))
          else
            let seen' := {[name]} ∪ seen st in
            let txt := read_source fs name in
            load_loop fs fuel'
              (Loader (scan seen' (splitlines txt) rest) seen'
                      (<[name := txt]> (contents st)) (reads st ++ [name]))
      end
  end.

Definition load_init : loader := Loader [START] ∅ ∅ [].

(** The lines of the files not yet read: no more names than that can still
    be appended to the queue. *)
Definition pending (fs : gmap string string) (X : gset string) : nat :=
  sum_list_with (λ name, length (splitlines (read_source fs name))) (elements X).

(** Fuel that always suffices ([load_all_terminates]): one turn for the
    root and one for every name the files can append. *)
Definition load_fuel (fs : gmap string string) : nat :=
  1 + pending fs (dom fs).

Definition load_run (fs : gmap string string) : option loader :=
  load_loop fs (load_fuel fs) load_init.

(** [load_all(base_dir)] *)
Definition load_all (fs : gmap string string) : option (gmap string string) :=
  contents <$> load_run fs.

(** What the loop keeps true: the files read are the visited names, each
    read once, and [contents] holds what the Source Reader gave for them. *)
Definition loader_inv (fs : gmap string string) (st : loader) : Prop :=
  NoDup (reads st)
  ∧ (∀ name, name ∈ reads st ↔ name ∈ seen st)
  ∧ (∀ name, contents st !! name =
             if bool_decide (name ∈ seen st) then Some (read_source fs name)
             else None).

(** An include graph with cycles: the root includes [a], [a] includes [b] and
    the root, [b] includes [a] and itself. *)
Definition cyclic_fs : gmap string string :=
  {[ START := "include:a";
     "a" := "include:b" +:+ String "010" "include:category-porn";
     "b" := "include:a" +:+ String "010" "include:b" ]}.

(** The traversal example: the root includes [A] and [B], [A] includes an
    excluded name and the root again, [B] includes nothing. *)
Definition traversal_fs : gmap string string :=
  {[ START := "include:A" +:+ String "010" "include:B";
     "A" := "include:C-EHentai" +:+ String "010" "include: category-porn ";
     "B" := "b.example" ]}.

(** ** The aggregator *)

(** [include_order], from the lines of the root file. *)
Fixpoint include_order_of (lines : list string) : list string :=
  match lines with
  | [] => []
  | line :: rest =>
      let line := strip line in
      if startswith line "include:" then
        let inc := strip (item1 (split1 ":" line)) in
        if is_empty inc then include_order_of rest
        else inc :: include_order_of rest
      else include_order_of rest
  end.

Record writer := Writer {
  out_lines : list string;
  seen_rules : gset string
}.

Definition append_line (w : writer) (s : string) : writer :=
  Writer (out_lines w ++ [s]) (seen_rules w).

(** [t = transform(line); if t and t not in seen_rules: ...] *)
Definition emit (w : writer) (line : string) : writer :=
  match transform line with
  | Some t =>
      if negb (is_empty t) && bool_decide (t ∉ seen_rules w)
      then Writer (out_lines w ++ [t]) ({[t]} ∪ seen_rules w)
      else w
  | None => w
  end.

Definition header (name : string) : string := "# " +:+ name.

(** The body of [for inc in include_order]. *)
Definition emit_block (contents : gmap string string) (w : writer) (inc : string)
  : writer :=
  match contents !! inc with
  | None => w
  | Some txt =>
      append_line (foldl emit (append_line w (header inc)) (splitlines txt)) ""
  end.

Definition pass1 (contents : gmap string string) (include_order : list string)
  : writer :=
  foldl (emit_block contents) (Writer [] ∅) include_order.

(** The body of the second loop over the root file. *)
Definition emit_own (w : writer) (line : string) : writer :=
  if startswith (strip line) "include:" then w else emit w line.

Definition pass2 (w : writer) (main_txt : string) : writer :=
  foldl emit_own (append_line w "# others") (splitlines main_txt).

(** [out_lines] at the end of [main], from the resolved file map. *)
Definition build (contents : gmap string string) : list string :=
  let main_txt := default "" (contents !! START) in
  let include_order := include_order_of (splitlines main_txt) in
  out_lines (pass2 (pass1 contents include_order) main_txt).

(** LF, the separator of the written document. *)
Definition LF : string := String "010" EmptyString.

Definition document (contents : gmap string string) : string :=
  join LF (build contents).

(** *** Reading the document *)

(** A rule line starts with its rule type; a header line starts with [#]. *)
Definition is_rule_line (s : string) : Prop := startswith s "DOMAIN" = true.

Definition rule_lines (out : list string) : list string := filter is_rule_line out.

(** The elements of a list in the order of their first occurrence. *)
Fixpoint first_occurrences (l : list string) : list string :=
  match l with
  | [] => []
  | x :: l' => x :: filter (λ y, y ≠ x) (first_occurrences l')
  end.

(** The rules a block adds, said without the loop: the rules of the file's
    lines that are not emitted yet, each at its first occurrence. *)
Definition block_rules (emitted : gset string) (lines : list string)
  : list string :=
  first_occurrences (filter (λ r, r ∉ emitted) (omap transform lines)).

(** What the writer keeps true: no rule line twice, and every rule line of
    the document is recorded in [seen_rules]. *)
Definition writer_inv (w : writer) : Prop :=
  NoDup (rule_lines (out_lines w))
  ∧ ∀ r, r ∈ rule_lines (out_lines w) → r ∈ seen_rules w.

(** *** Data sets of the examples *)

(** The end-to-end scenario. *)
Definition scenario_fs : gmap string string :=
  {[ START := "include:x" +:+ LF +:+ "foo.com" +:+ LF;
     "x" := "full:bar.com" +:+ LF +:+ "#comment" +:+ LF ]}.

(** One raw value in two included files and in the root file. *)
Definition shared_fs : gmap string string :=
  {[ START := "include:x" +:+ LF +:+ "include:y" +:+ LF +:+ "bar.com";
     "x" := "bar.com" +:+ LF +:+ "full:bar.com";
     "y" := "full:bar.com" +:+ LF +:+ "bar.com" +:+ LF +:+ "y.org" ]}.


(** ** The process: [main] and its exit status *)

Inductive os_result := Done | OSError (e : string).

(** What the run meets outside the script. *)
Record os_env := OsEnv {
  use_local : bool;
  local_files : gmap string string;
  remote_files : gmap string string;
  makedirs_result : os_result;
  write_result : os_result
}.

(** The lines [main] itself prints. *)
Inductive message :=
| UsingLocal
| FetchingRemote
| Wrote (lines : nat)
| ErrorWriting (e : string).

(** How the process ends: [raise SystemExit(main())] exits with the value
    [main] returns; an exception nothing catches ends it with a traceback
    and a failure status. *)
Inductive outcome := Exit (status : Z) | Uncaught (e : string).

Record run := Run {
  stdout : list message;
  stderr : list message;
  written : option string;
  result : outcome
}.

(** [main()]; [None] only if the resolver ran out of fuel ([main_total]).
    [written] is the document when the whole of it reached the file.  The
    warnings of the Source Reader are not modelled: [stderr] holds what
    [main] itself prints there. *)
Definition main (env : os_env) : option run :=
  let fs := if use_local env then local_files env else remote_files env in
  let hello := if use_local env then UsingLocal else FetchingRemote in
  contents ← load_all fs;
  let out := build contents in
  Some
    match makedirs_result env with
    | OSError e => Run [hello] [] None (Uncaught e)
    | Done =>
        match write_result env with
        | Done => Run [hello; Wrote (length out)] [] (Some (join LF out)) (Exit 0)
        | OSError e => Run [hello] [ErrorWriting e] None (Exit 0)
        end
    end.

(** A run that cannot create the output directory, and one that cannot
    write the output file. *)
Definition no_directory_env : os_env :=
  OsEnv false ∅ scenario_fs (OSError "FileExistsError") Done.


(** ** Notions for the properties of the whole run *)

(** [includes fs m inc]: the text of [m] has an include directive whose
    trimmed value [inc] is neither empty nor excluded. *)
Definition includes (fs : gmap string string) (m inc : string) : Prop :=
  ∃ line, line ∈ splitlines (read_source fs m)
          ∧ startswith (strip line) "include:" = true
          ∧ inc = strip (item1 (split1 ":" (strip line)))
          ∧ inc ≠ ""
          ∧ contains EXCLUDED (lower inc) = false.

(** The names the root leads to through such directives. *)
Inductive reachable (fs : gmap string string) : string → Prop :=
| reach_root : reachable fs START
| reach_step (m inc : string) :
    reachable fs m → includes fs m inc → reachable fs inc.

(** What the loop keeps true of the include graph: visited and queued names
    are reachable, the root is visited or queued, and what a visited file
    includes is visited or queued. *)
Definition reach_inv (fs : gmap string string) (st : loader) : Prop :=
  (∀ n, n ∈ seen st ∨ n ∈ queue st → reachable fs n)
  ∧ (START ∈ seen st ∨ START ∈ queue st)
  ∧ (∀ m inc, m ∈ seen st → includes fs m inc →
              inc ∈ seen st ∨ inc ∈ queue st).

(** The characters of a string, and strings without a line boundary or made
    of white space only. *)
Definition chars (s : string) : list ascii := list_ascii_of_string s.

Definition no_linebreak (s : string) : Prop :=
  ∀ c, c ∈ chars s → is_linebreak c = false.

Definition all_space (s : string) : Prop :=
  ∀ c, c ∈ chars s → isspace c = true.

(** What a line of the document can be, for a given file map. *)
Definition document_line (contents : gmap string string) (s : string) : Prop :=
  s = ""
  ∨ s = "# others"
  ∨ (∃ inc, is_Some (contents !! inc) ∧ s = header inc)
  ∨ (∃ line, transform line = Some s).

(** The rules of the lines of the file map's entry for [name]. *)
Definition file_rule (contents : gmap string string) (name r : string) : Prop :=
  ∃ txt line, contents !! name = Some txt ∧ line ∈ splitlines txt
              ∧ transform line = Some r.

(** [writer_rules w T]: the rule lines written so far, and the rules
    recorded as emitted, are those of [T]. *)
Definition writer_rules (w : writer) (T : string → Prop) : Prop :=
  ∀ r, (r ∈ rule_lines (out_lines w) ↔ T r) ∧ (r ∈ seen_rules w ↔ T r).

(** A data set whose file [D] is included by [A] only, not by the root. *)
Definition nested_fs : gmap string string :=
  {[ START := "include:A" +:+ LF +:+ "root.example";
     "A" := "include:D" +:+ LF +:+ "a.example";
     "D" := "d.example" ]}.

(** * Properties *)

(** ** Text helpers *)

Lemma is_empty_spec (s : string) : is_empty s = true ↔ s = "".
Proof. destruct s; simpl; split; congruence. Qed.

Lemma is_empty_false (s : string) : is_empty s = false ↔ s ≠ "".
Proof. destruct s; simpl; split; congruence. Qed.

(** [startswith] compares literally: it holds exactly of [p] followed by a
    remainder. *)
Lemma startswith_spec (s p : string) :
  startswith s p = true ↔ ∃ r, s = p +:+ r.
Proof.
  revert s; induction p as [|a p IH]; intros s; simpl.
  - split; [intros _; by exists s | done].
  - destruct s as [|b s].
    + split; [discriminate | intros [r Hr]; discriminate].
    + rewrite andb_true_iff, IH. split.
      * intros [Hab [r ->]]. apply Ascii.eqb_eq in Hab as ->. eauto.
      * intros [r Hr]. injection Hr as -> ->.
        split; [apply Ascii.eqb_refl | eauto].
Qed.

Lemma startswith_empty (p : string) : startswith "" p = is_empty p.
Proof. by destruct p. Qed.

(** Where the separator occurs, [split1] gives two pieces, so [item1] reads a
    piece that exists. *)
Lemma split1_found (sep : ascii) (s : string) :
  contains (String sep "") s = true →
  ∃ a b, split1 sep s = [a; b] ∧ s = a +:+ String sep b.
Proof.
  induction s as [|c s IH]; simpl; [discriminate|].
  rewrite Ascii.eqb_sym. destruct (Ascii.eqb_spec c sep) as [->|Hne]; simpl.
  - intros _. by exists "", s.
  - intros [a [b [-> ->]]]%IH. by exists (String c a), b.
Qed.

Lemma append_assoc (a b c : string) : (a +:+ b) +:+ c = a +:+ b +:+ c.
Proof.
  induction a as [|x a IH]; [done|].
  change (String x ((a +:+ b) +:+ c) = String x (a +:+ b +:+ c)).
  by rewrite IH.
Qed.

Lemma contains_app_r (sub p r : string) :
  contains sub p = true → contains sub (p +:+ r) = true.
Proof.
  induction p as [|c p IH]; simpl.
  - rewrite orb_false_r, startswith_empty. intros ->%is_empty_spec.
    by destruct r.
  - intros [H|H]%orb_true_iff; apply orb_true_iff; [left | right; auto].
    apply startswith_spec in H as [t Ht]. apply startswith_spec.
    exists (t +:+ r). change (String c p +:+ r = sub +:+ t +:+ r).
    by rewrite Ht, append_assoc.
Qed.

Lemma split1_startswith (s p : string) :
  startswith s p = true → contains ":" p = true →
  ∃ a b, split1 ":" s = [a; b].
Proof.
  intros [r ->]%startswith_spec Hp.
  destruct (split1_found ":" (p +:+ r)) as (a & b & ? & _); eauto.
  by apply contains_app_r.
Qed.

Lemma isspace_lower_char (c : ascii) : isspace (lower_char c) = isspace c.
Proof. destruct c as [[] [] [] [] [] [] [] []]; reflexivity. Qed.

Lemma lower_lstrip (s : string) : lower (lstrip s) = lstrip (lower s).
Proof.
  induction s as [|c s IH]; simpl; [done|].
  rewrite isspace_lower_char. by destruct (isspace c).
Qed.

Lemma lower_rstrip (s : string) : lower (rstrip s) = rstrip (lower s).
Proof.
  induction s as [|c s IH]; simpl; [done|].
  rewrite <- IH, isspace_lower_char.
  destruct (rstrip s); simpl; [by destruct (isspace c) | done].
Qed.

Lemma lower_strip (s : string) : lower (strip s) = strip (lower s).
Proof. unfold strip. by rewrite lower_rstrip, lower_lstrip. Qed.

Lemma eqb_isspace (a c : ascii) :
  isspace a = false → isspace c = true → Ascii.eqb a c = false.
Proof.
  intros Ha Hc. destruct (Ascii.eqb_spec a c) as [->|]; congruence.
Qed.

Lemma contains_lstrip (sub s : string) :
  begins_nonspace sub = true → contains sub (lstrip s) = contains sub s.
Proof.
  intros Hsub. induction s as [|c s IH]; [done|].
  cbn [lstrip]. destruct (isspace c) eqn:Hc; [|done].
  rewrite IH. cbn [contains]. destruct sub as [|a sub]; [done|].
  cbn [startswith]. apply negb_true_iff in Hsub.
  by rewrite (eqb_isspace a c).
Qed.

Lemma startswith_rstrip (sub s : string) :
  ends_nonspace sub = true → startswith (rstrip s) sub = startswith s sub.
Proof.
  revert sub. induction s as [|c s IH]; intros sub Hsub; [done|].
  destruct sub as [|a sub]; [done|]. cbn [startswith rstrip].
  destruct sub as [|a' sub].
  - cbn in Hsub. apply negb_true_iff in Hsub.
    destruct (rstrip s); [destruct (isspace c) eqn:Hc|]; cbn;
      rewrite ?andb_true_r; try done.
    symmetry. by apply eqb_isspace.
  - specialize (IH (String a' sub) Hsub).
    destruct (rstrip s) eqn:Hr.
    + rewrite <- IH. destruct (isspace c); cbn; by rewrite ?andb_false_r.
    + by rewrite IH.
Qed.

Lemma contains_rstrip (sub s : string) :
  ends_nonspace sub = true → contains sub (rstrip s) = contains sub s.
Proof.
  intros Hsub. induction s as [|c s IH]; [done|].
  cbn [contains]. rewrite <- (startswith_rstrip sub (String c s) Hsub), <- IH.
  cbn [rstrip]. destruct (rstrip s) eqn:Hr.
  - destruct (isspace c); cbn [contains]; [|done].
    by destruct (startswith "" sub).
  - done.
Qed.

Lemma contains_strip (sub s : string) :
  begins_nonspace sub = true → ends_nonspace sub = true →
  contains sub (strip s) = contains sub s.
Proof.
  intros. unfold strip. by rewrite contains_rstrip, contains_lstrip.
Qed.

(** Trimming a line neither hides nor creates a mention of the excluded
    name. *)
Lemma excluded_strip (line : string) :
  contains EXCLUDED (lower (strip line)) = contains EXCLUDED (lower line).
Proof. rewrite lower_strip. by apply contains_strip. Qed.

Lemma rstrip_space (s : string) :
  (∀ c, c ∈ list_ascii_of_string s → isspace c = true) → rstrip s = "".
Proof.
  induction s as [|c s IH]; intros Hs; [done|]. cbn in *.
  rewrite IH; [|intros; apply Hs; by right].
  rewrite Hs; [done | by left].
Qed.


(** ** The line transformer *)

Lemma strip_full (rest : string) :
  (∀ c, c ∈ list_ascii_of_string rest → isspace c = true) →
  strip ("full:" +:+ rest) = "full:".
Proof.
  intros Hrest. unfold strip.
  change (lstrip ("full:" +:+ rest)) with ("full:" +:+ rest).
  change ("full:" +:+ rest)
    with (String "f" (String "u" (String "l" (String "l" (String ":" rest))))).
  cbn [rstrip]. by rewrite rstrip_space.
Qed.

Lemma transform_full (line r : string) :
  strip line = "full:" +:+ r →
  contains EXCLUDED (lower line) = false →
  transform line =
    Some ((if contains "." (strip r) then "DOMAIN," else "DOMAIN-KEYWORD,")
          +:+ strip r).
Proof.
  intros Hl Hex. rewrite <- excluded_strip in Hex.
  unfold transform. rewrite Hex, Hl.
  change (item1 (split1 ":" ("full:" +:+ r))) with r.
  change (is_empty ("full:" +:+ r)) with false.
  change (startswith ("full:" +:+ r) "#") with false.
  change (startswith ("full:" +:+ r) "include:") with false.
  change (startswith ("full:" +:+ r) "regexp:") with false.
  change (startswith ("full:" +:+ r) "full:") with true.
  cbn [orb]. by destruct (contains "." (strip r)).
Qed.

Lemma transform_plain (line : string) :
  strip line ≠ "" →
  startswith (strip line) "#" = false →
  startswith (strip line) "include:" = false →
  startswith (strip line) "regexp:" = false →
  startswith (strip line) "full:" = false →
  contains EXCLUDED (lower line) = false →
  transform line =
    Some ((if contains "." (strip line) then "DOMAIN-SUFFIX,"
           else "DOMAIN-KEYWORD,") +:+ strip line).
Proof.
  intros Hne%is_empty_false Hc Hi Hr Hf Hex. rewrite <- excluded_strip in Hex.
  unfold transform. rewrite Hne, Hc, Hi, Hr, Hex, Hf. cbn [orb].
  by destruct (contains "." (strip line)).
Qed.

(** C1, as the script has it: a line that does not mention the excluded name
    (in any letter case) and whose trimmed form is [full:] followed by a
    remainder becomes [DOMAIN,<value>] when the trimmed remainder holds a dot
    and [DOMAIN-KEYWORD,<value>] when it does not; such a line whose trimmed
    form is not blank and starts with none of [#], [include:], [regexp:],
    [full:] becomes [DOMAIN-SUFFIX,<value>] with a dot and
    [DOMAIN-KEYWORD,<value>] without. *)
Theorem transform_rule_shape (line : string) :
  contains EXCLUDED (lower line) = false →
  (∀ r, strip line = "full:" +:+ r →
     transform line =
       Some ((if contains "." (strip r) then "DOMAIN," else "DOMAIN-KEYWORD,")
             +:+ strip r)) ∧
  (strip line ≠ "" →
   startswith (strip line) "#" = false →
   startswith (strip line) "include:" = false →
   startswith (strip line) "regexp:" = false →
   startswith (strip line) "full:" = false →
   transform line =
     Some ((if contains "." (strip line) then "DOMAIN-SUFFIX,"
            else "DOMAIN-KEYWORD,") +:+ strip line)).
Proof.
  intros Hex. split.
  - intros r Hl. by apply transform_full.
  - intros. by apply transform_plain.
Qed.

Lemma transform_rule_shape_witness :
  transform " full: a.b.c " = Some "DOMAIN,a.b.c" ∧
  transform "full:keyword" = Some "DOMAIN-KEYWORD,keyword" ∧
  transform "example.com" = Some "DOMAIN-SUFFIX,example.com" ∧
  transform "adult" = Some "DOMAIN-KEYWORD,adult".
Proof.
  split; [|split; [|split]].
  - exact (proj1 (transform_rule_shape " full: a.b.c " eq_refl) " a.b.c" eq_refl).
  - exact (proj1 (transform_rule_shape "full:keyword" eq_refl) "keyword" eq_refl).
  - refine (proj2 (transform_rule_shape "example.com" eq_refl) _ eq_refl eq_refl
              eq_refl eq_refl); discriminate.
  - refine (proj2 (transform_rule_shape "adult" eq_refl) _ eq_refl eq_refl
              eq_refl eq_refl); discriminate.
Defined.

(** C1 as stated fails on a line that mentions the excluded name: the line
    is [full:] followed by a value with a dot, and it is dropped. *)
Lemma transform_full_excluded :
  strip "full:ehentai.org" = "full:" +:+ "ehentai.org" ∧
  contains "." (strip "ehentai.org") = true ∧
  transform "full:ehentai.org" = None ∧
  transform "full:ehentai.org" ≠ Some "DOMAIN,ehentai.org".
Proof. by repeat split. Qed.

(** C2: a line is dropped exactly when its trimmed form is blank or starts
    with [#], [include:] or [regexp:], or the line mentions the excluded name
    in some letter case; the keywords are compared literally, so [Include:],
    [REGEXP:] and [Full:] lines are plain values. *)
Theorem transform_drops (line : string) :
  (transform line = None ↔
     strip line = ""
     ∨ startswith (strip line) "#" = true
     ∨ startswith (strip line) "include:" = true
     ∨ startswith (strip line) "regexp:" = true
     ∨ contains EXCLUDED (lower line) = true)
  ∧ transform "Include:x" = Some "DOMAIN-KEYWORD,Include:x"
  ∧ transform "REGEXP:a.b" = Some "DOMAIN-SUFFIX,REGEXP:a.b"
  ∧ transform "Full:a.b" = Some "DOMAIN-SUFFIX,Full:a.b"
  ∧ transform "x.EHentai.org" = None.
Proof.
  split; [|by repeat split].
  rewrite <- excluded_strip, <- is_empty_spec. unfold transform.
  destruct (is_empty (strip line)), (startswith (strip line) "#"),
    (startswith (strip line) "include:"), (startswith (strip line) "regexp:"),
    (contains EXCLUDED (lower (strip line))); cbn [orb]; try tauto.
  split; [|intros [?|[?|[?|[?|?]]]]; discriminate].
  by destruct (startswith (strip line) "full:"),
    (contains "." (strip (item1 (split1 ":" (strip line))))),
    (contains "." (strip line)).
Qed.

(** C10: a line made of [full:] and white space only is not dropped: it
    becomes the rule [DOMAIN-KEYWORD,] with an empty value, and the document
    built from a root file holding the line [full:] has that rule line. *)
Theorem transform_full_empty_value :
  (∀ rest : string,
     (∀ c, c ∈ list_ascii_of_string rest → isspace c = true) →
     transform ("full:" +:+ rest) = Some "DOMAIN-KEYWORD,")
  ∧ build {[ START := "full:" ]} = ["# others"; "DOMAIN-KEYWORD,"].
Proof.
  split; [|by vm_compute].
  intros rest Hrest. unfold transform. by rewrite strip_full.
Qed.

Lemma transform_full_empty_value_witness :
  transform "full:" = Some "DOMAIN-KEYWORD,"
  ∧ transform ("full:" +:+ "  ") = Some "DOMAIN-KEYWORD,".
Proof.
  split.
  - apply (proj1 transform_full_empty_value ""). intros c Hc. inversion Hc.
  - apply (proj1 transform_full_empty_value "  "). intros c Hc.
    apply list_elem_of_In in Hc. cbn in Hc. by destruct Hc as [<-|[<-|[]]].
Defined.

(** ** The include resolver *)

Section Loader.

Variable fs : gmap string string.

Lemma scan_line_length (vis : gset string) (q : list string) (line : string) :
  length (scan_line vis q line) ≤ S (length q).
Proof.
  unfold scan_line. repeat case_match; rewrite ?length_app; simpl; lia.
Qed.

Lemma scan_length (vis : gset string) (lines q : list string) :
  length (scan vis lines q) ≤ length q + length lines.
Proof.
  revert q. induction lines as [|line lines IH]; intros q; simpl; [lia|].
  specialize (IH (scan_line vis q line)).
  pose proof (scan_line_length vis q line). lia.
Qed.

(** What the scan of one file appends to the queue. *)
Lemma scan_elem (vis : gset string) (lines q : list string) (inc : string) :
  inc ∈ scan vis lines q →
  inc ∈ q
  ∨ (inc ≠ "" ∧ contains EXCLUDED (lower inc) = false ∧ (inc ∉ vis)
     ∧ ∃ line, line ∈ lines ∧ startswith (strip line) "include:" = true
               ∧ inc = strip (item1 (split1 ":" (strip line)))).
Proof.
  revert q. induction lines as [|line lines IH]; intros q; cbn [scan];
    [by left|].
  intros [Hq|(?&?&?&l&?&?&?)]%IH.
  - unfold scan_line in Hq.
    destruct (startswith (strip line) "include:") eqn:Hinc; [|by left].
    destruct (negb _ && negb _ && _) eqn:Hok; [|by left].
    apply elem_of_app in Hq as [?| ->%list_elem_of_singleton]; [by left|].
    apply andb_true_iff in Hok as [[He Hx]%andb_true_iff Hv].
    apply negb_true_iff in He, Hx. apply bool_decide_eq_true in Hv.
    right. split; [by apply is_empty_false|]. do 2 (split; [done|]).
    exists line. split; [left | done].
  - right. do 3 (split; [done|]). exists l. split; [by right | done].
Qed.

Lemma pending_read (X : gset string) (name : string) :
  name ∈ X →
  pending fs X =
    length (splitlines (read_source fs name)) + pending fs (X ∖ {[name]}).
Proof.
  intros Hin. unfold pending.
  rewrite (union_difference_singleton_L name X Hin) at 1.
  rewrite elements_union_singleton; [done | set_solver].
Qed.

(** Reading a file takes it out of [pending] and appends at most its lines. *)
Lemma pending_step (vis : gset string) (name : string) :
  name ∉ vis →
  length (splitlines (read_source fs name))
    + pending fs (dom fs ∖ ({[name]} ∪ vis))
  ≤ pending fs (dom fs ∖ vis).
Proof.
  intros Hvis. destruct (decide (name ∈ dom fs)) as [Hd|Hd].
  - rewrite (pending_read (dom fs ∖ vis) name); [|set_solver].
    replace ((dom fs ∖ vis) ∖ {[name]}) with (dom fs ∖ ({[name]} ∪ vis))
      by set_solver.
    lia.
  - apply not_elem_of_dom in Hd. unfold read_source at 1. rewrite Hd. simpl.
    replace (dom fs ∖ ({[name]} ∪ vis)) with (dom fs ∖ vis); [lia|].
    apply not_elem_of_dom in Hd. set_solver.
Qed.

(** The loop ends within [length queue + pending] turns, with the queue
    empty. *)
Lemma load_loop_enough (fuel : nat) (st : loader) :
  length (queue st) + pending fs (dom fs ∖ seen st) ≤ fuel →
  ∃ st', load_loop fs fuel st = Some st' ∧ queue st' = [].
Proof.
  revert st. induction fuel as [|fuel IH]; intros [q vis c r]; simpl.
  - destruct q; simpl; [eauto | lia].
  - destruct q as [|name rest]; simpl; [eauto|]. intros Hfuel.
    case_bool_decide as Hvis; apply IH; simpl; [lia|].
    pose proof (scan_length ({[name]} ∪ vis)
                  (splitlines (read_source fs name)) rest).
    pose proof (pending_step vis name Hvis). lia.
Qed.

(** More fuel changes nothing once the loop has ended. *)
Lemma load_loop_more (n m : nat) (st st' : loader) :
  load_loop fs n st = Some st' → n ≤ m → load_loop fs m st = Some st'.
Proof.
  revert m st. induction n as [|n IH]; intros m [q vis c r]; simpl.
  - destruct q; [|discriminate]. intros [= <-] _. by destruct m.
  - destruct q as [|name rest]; [intros [= <-] _; by destruct m|].
    intros Hrun Hm. destruct m as [|m]; [lia|]. simpl.
    case_bool_decide; apply IH; (done || lia).
Qed.

Lemma load_init_fuel :
  length (queue load_init) + pending fs (dom fs ∖ seen load_init)
  ≤ load_fuel fs.
Proof.
  unfold load_fuel, load_init. simpl.
  replace (dom fs ∖ (∅ : gset string)) with (dom fs) by set_solver. lia.
Qed.

Lemma load_loop_inv (fuel : nat) (st st' : loader) :
  load_loop fs fuel st = Some st' → loader_inv fs st → loader_inv fs st'.
Proof.
  revert st. induction fuel as [|fuel IH]; intros [q vis c r]; simpl.
  - destruct q; [|discriminate]. by intros [= <-].
  - destruct q as [|name rest]; [by intros [= <-]|].
    case_bool_decide as Hvis; intros Hrun Hinv; apply (IH _ Hrun); [done|].
    destruct Hinv as (Hnd & Hrs & Hc); simpl in *.
    split; [|split]; simpl.
    + apply NoDup_app. split; [done|]. split; [|apply NoDup_singleton].
      intros x Hx ->%list_elem_of_singleton. by apply Hvis, Hrs.
    + intros x. rewrite elem_of_app, list_elem_of_singleton, Hrs. set_solver.
    + intros x. destruct (decide (name = x)) as [->|Hne].
      * rewrite lookup_insert_eq, bool_decide_eq_true_2; [done | set_solver].
      * rewrite lookup_insert_ne, Hc by done.
        repeat case_bool_decide; (done || set_solver).
Qed.

Lemma load_loop_reads (fuel : nat) (st st' : loader) :
  load_loop fs fuel st = Some st' → reads st `prefix_of` reads st'.
Proof.
  revert st. induction fuel as [|fuel IH]; intros [q vis c r]; simpl.
  - destruct q; [|discriminate]. by intros [= <-].
  - destruct q as [|name rest]; [by intros [= <-]|].
    case_bool_decide; intros Hpre%IH; simpl in *; [done|].
    etrans; [|exact Hpre]. by apply prefix_app_r.
Qed.

Lemma load_init_inv : loader_inv fs load_init.
Proof.
  split; [apply NoDup_nil_2|]. split; simpl.
  - intros name. set_solver.
  - intros name. by rewrite lookup_empty.
Qed.

(** C6: for every finite data set, include cycles or not, the traversal
    ends: from [load_fuel fs] turns on the loop returns, with the queue
    empty. *)
Theorem load_all_terminates :
  ∃ st, queue st = []
        ∧ load_run fs = Some st
        ∧ ∀ fuel, load_fuel fs ≤ fuel → load_loop fs fuel load_init = Some st.
Proof.
  destruct (load_loop_enough (load_fuel fs) load_init load_init_fuel)
    as (st & Hrun & Hq).
  exists st. split; [done|]. split; [done|].
  intros fuel Hfuel. by apply (load_loop_more (load_fuel fs)).
Qed.

(** C5: in a run of the resolver every file name is read at most once (the
    names read are the visited ones, without repeat, the root first), and
    the scan of a file appends a trimmed include value to the queue only if
    it is not empty, does not mention the excluded name in any letter case
    and is not visited yet. *)
Theorem load_reads_once (fuel : nat) (st : loader) :
  load_loop fs fuel load_init = Some st →
  (NoDup (reads st)
   ∧ (∀ name, name ∈ reads st ↔ name ∈ seen st)
   ∧ (∃ others, reads st = START :: others ∧ START ∉ others)
   ∧ dom (contents st) = seen st)
  ∧ (∀ (vis : gset string) (lines q : list string) (inc : string),
       inc ∈ scan vis lines q →
       inc ∈ q
       ∨ (inc ≠ "" ∧ contains EXCLUDED (lower inc) = false ∧ (inc ∉ vis)
          ∧ ∃ line, line ∈ lines ∧ startswith (strip line) "include:" = true
                    ∧ inc = strip (item1 (split1 ":" (strip line))))).
Proof.
  intros Hrun. split; [|apply scan_elem].
  pose proof (load_loop_inv _ _ _ Hrun load_init_inv) as (Hnd & Hrs & Hc).
  split; [done|]. split; [done|]. split.
  - destruct fuel as [|fuel]; [discriminate|]. simpl in Hrun.
    rewrite bool_decide_eq_false_2 in Hrun by set_solver.
    apply load_loop_reads in Hrun as [others Hothers]. simpl in Hothers.
    exists others. split; [done|]. rewrite Hothers in Hnd.
    by apply NoDup_cons in Hnd as [? _].
  - apply set_eq. intros name. rewrite elem_of_dom, Hc.
    case_bool_decide; split; (done || by intros [? ?] || eauto).
Qed.

End Loader.

Lemma load_reads_once_witness :
  NoDup (reads (default load_init (load_run traversal_fs)))
  ∧ reads (default load_init (load_run traversal_fs)) = [START; "A"; "B"].
Proof.
  split; [|by vm_compute].
  refine (proj1 (proj1 (load_reads_once traversal_fs (load_fuel traversal_fs)
                          (default load_init (load_run traversal_fs)) _))).
  by vm_compute.
Defined.

Lemma load_all_terminates_witness :
  ∃ st, queue st = []
        ∧ load_run cyclic_fs = Some st
        ∧ ∀ fuel, load_fuel cyclic_fs ≤ fuel →
                  load_loop cyclic_fs fuel load_init = Some st.
Proof. exact (load_all_terminates cyclic_fs). Defined.

(** ** The aggregator *)

Lemma transform_is_rule (line r : string) :
  transform line = Some r → is_rule_line r.
Proof.
  unfold transform. repeat case_match; intros [= <-]; reflexivity.
Qed.

Lemma transform_nonempty (line r : string) :
  transform line = Some r → is_empty r = false.
Proof.
  intros [t ->]%transform_is_rule%startswith_spec. reflexivity.
Qed.


Lemma header_not_rule (name : string) : ¬ is_rule_line (header name).
Proof. discriminate. Qed.

Lemma filter_none (P : string → Prop) `{!∀ x, Decision (P x)} (l : list string) :
  (∀ x, x ∈ l → ¬ P x) → filter P l = [].
Proof.
  induction l as [|x l IH]; intros Hl; [done|].
  rewrite filter_cons_False by (apply Hl; left). apply IH.
  intros y Hy. apply Hl. by right.
Qed.

Lemma first_occurrences_filter (P : string → Prop) `{!∀ x, Decision (P x)}
    (l : list string) :
  first_occurrences (filter P l) = filter P (first_occurrences l).
Proof.
  induction l as [|x l IH]; [done|].
  destruct (decide (P x)) as [HP|HP].
  - rewrite filter_cons_True by done. cbn [first_occurrences].
    rewrite filter_cons_True by done. f_equal.
    rewrite IH, !list_filter_filter. apply list_filter_iff. naive_solver.
  - rewrite filter_cons_False by done. cbn [first_occurrences].
    rewrite filter_cons_False by done. rewrite IH. symmetry.
    apply list_filter_filter_l. by intros y Hy ->.
Qed.



(** The inner loop of a block appends exactly [block_rules]. *)
Lemma foldl_emit (w : writer) (lines : list string) :
  foldl emit w lines =
    Writer (out_lines w ++ block_rules (seen_rules w) lines)
           (list_to_set (block_rules (seen_rules w) lines) ∪ seen_rules w).
Proof.
  revert w. induction lines as [|line lines IH]; intros [out emitted].
  - cbn. rewrite app_nil_r. f_equal. set_solver.
  - cbn [foldl]. rewrite IH. unfold emit, block_rules. cbn [omap list_omap].
    destruct (transform line) as [t|] eqn:Ht; [|done].
    rewrite (transform_nonempty _ _ Ht). cbn [negb andb out_lines seen_rules].
    case_bool_decide as Hnew.
    + rewrite filter_cons_True by done. cbn [first_occurrences out_lines seen_rules].
      rewrite <- first_occurrences_filter, list_filter_filter.
      rewrite (list_filter_iff (λ r, r ∉ {[t]} ∪ emitted)
                 (λ r, r ≠ t ∧ r ∉ emitted)) by set_solver.
      rewrite <- app_assoc. f_equal. set_solver.
    + cbn [out_lines seen_rules]. rewrite filter_cons_False; [done | by intros ?].
Qed.

Lemma emit_inv (w : writer) (line : string) :
  writer_inv w → writer_inv (emit w line).
Proof.
  intros [Hnd Hin]. unfold emit.
  destruct (transform line) as [t|] eqn:Ht; [|done].
  destruct (negb _ && _) eqn:Hok; [|done].
  apply andb_true_iff in Hok as [_ Hnew%bool_decide_eq_true].
  pose proof (transform_is_rule _ _ Ht) as Hrule.
  unfold writer_inv, rule_lines in *. cbn [out_lines seen_rules].
  rewrite filter_app, filter_cons_True, filter_nil by done. split.
  - apply NoDup_app. split; [done|]. split; [|apply NoDup_singleton].
    intros x Hx ->%list_elem_of_singleton. by apply Hnew, Hin.
  - intros r [Hr| ->%list_elem_of_singleton]%elem_of_app; [|set_solver].
    apply Hin in Hr. set_solver.
Qed.

Lemma append_line_inv (w : writer) (s : string) :
  ¬ is_rule_line s → writer_inv w → writer_inv (append_line w s).
Proof.
  intros Hs [Hnd Hin]. unfold writer_inv, rule_lines, append_line in *.
  cbn [out_lines seen_rules].
  by rewrite filter_app, filter_cons_False, filter_nil, app_nil_r.
Qed.

Lemma foldl_inv {A} (f : writer → A → writer) (l : list A) (w : writer) :
  (∀ w x, writer_inv w → writer_inv (f w x)) →
  writer_inv w → writer_inv (foldl f w l).
Proof.
  intros Hf. revert w. induction l as [|x l IH]; intros w Hw; [done|].
  cbn [foldl]. by apply IH, Hf.
Qed.

Lemma emit_block_inv (contents : gmap string string) (w : writer) (inc : string) :
  writer_inv w → writer_inv (emit_block contents w inc).
Proof.
  intros Hw. unfold emit_block. destruct (contents !! inc) as [txt|]; [|done].
  apply append_line_inv; [discriminate|].
  apply foldl_inv; [apply emit_inv|].
  by apply append_line_inv; [apply header_not_rule|].
Qed.

Lemma emit_own_inv (w : writer) (line : string) :
  writer_inv w → writer_inv (emit_own w line).
Proof.
  intros Hw. unfold emit_own. case_match; [done | by apply emit_inv].
Qed.

Lemma build_inv (contents : gmap string string) :
  NoDup (rule_lines (build contents)).
Proof.
  unfold build, pass2, pass1.
  apply foldl_inv; [apply emit_own_inv|].
  apply append_line_inv; [discriminate|].
  apply foldl_inv; [apply emit_block_inv|].
  split; [apply NoDup_nil_2 | by intros r ?%elem_of_nil].
Qed.

Lemma NoDup_count (l : list string) (r : string) :
  NoDup l → length (filter (λ s, s = r) l) ≤ 1.
Proof.
  induction 1 as [|x l Hx Hnd IH]; [cbn; lia|].
  destruct (decide (x = r)) as [->|Hne].
  - rewrite filter_cons_True by done.
    rewrite (filter_none _ l); [done|]. by intros y Hy ->.
  - by rewrite filter_cons_False.
Qed.

(** C3: for every resolved file map, a rule string stands on at most one
    line of the document, whatever blocks its raw values come from. *)
Theorem rule_lines_unique (contents : gmap string string) (line r : string) :
  transform line = Some r →
  length (filter (λ s, s = r) (build contents)) ≤ 1.
Proof.
  intros Hr%transform_is_rule.
  rewrite <- (list_filter_filter_l (λ s, s = r) is_rule_line)
    by (by intros x ->).
  apply NoDup_count, build_inv.
Qed.

Lemma rule_lines_unique_witness :
  length (filter (λ s, s = "DOMAIN,bar.com")
            (build (default ∅ (load_all shared_fs)))) ≤ 1.
Proof.
  apply (rule_lines_unique (default ∅ (load_all shared_fs)) "full:bar.com").
  reflexivity.
Defined.


(** ** Blocks and their order *)

Section Blocks.

Variable contents : gmap string string.

Lemma emit_block_some (w : writer) (inc txt : string) :
  contents !! inc = Some txt →
  emit_block contents w inc =
    Writer (out_lines w ++ header inc
              :: block_rules (seen_rules w) (splitlines txt) ++ [""])
           (list_to_set (block_rules (seen_rules w) (splitlines txt))
              ∪ seen_rules w).
Proof.
  intros Hinc. unfold emit_block. rewrite Hinc, foldl_emit.
  unfold append_line. cbn [out_lines seen_rules].
  by rewrite <- !app_assoc.
Qed.

(** C7: the body of pass 1, run for each name of the include order in turn,
    leaves the writer as it is for a name without an entry in the file map,
    and for a name with one appends the header line made of [#], a space and
    the name, then the rules of the file's lines not emitted before (each
    once, at its first occurrence), then one blank line, which is there also
    when the block adds no rule. *)
Theorem emit_block_spec (w : writer) (incs : list string) (inc : string) :
  pass1 contents (incs ++ [inc]) =
    emit_block contents (pass1 contents incs) inc
  ∧ match contents !! inc with
    | None => emit_block contents w inc = w
    | Some txt =>
        let rules :=
          first_occurrences
            (filter (λ r, r ∉ seen_rules w)
               (omap transform (splitlines txt))) in
        emit_block contents w inc =
          Writer (out_lines w ++ ("# " +:+ inc) :: rules ++ [""])
                 (list_to_set rules ∪ seen_rules w)
        ∧ (rules = [] →
           out_lines (emit_block contents w inc) =
             out_lines w ++ ["# " +:+ inc; ""])
    end.
Proof.
  split; [unfold pass1; by rewrite foldl_app|].
  destruct (contents !! inc) as [txt|] eqn:Hinc.
  - cbn zeta. rewrite (emit_block_some w inc txt Hinc).
    unfold block_rules, header. split; [done|]. by intros ->.
  - unfold emit_block. by rewrite Hinc.
Qed.












End Blocks.

Lemma emit_block_spec_witness :
  out_lines (emit_block {[ "x" := "# no rule here" ]} (Writer [] ∅) "x") =
    [] ++ ["# x"; ""].
Proof.
  exact (proj2 (proj2 (emit_block_spec {[ "x" := "# no rule here" ]}
                         (Writer [] ∅) [] "x")) eq_refl).
Defined.



(** ** End to end *)

Example shared_document :
  build <$> load_all shared_fs =
    Some ["# x"; "DOMAIN-SUFFIX,bar.com"; "DOMAIN,bar.com"; ""; "# y";
          "DOMAIN-SUFFIX,y.org"; ""; "# others"].
Proof. by vm_compute. Qed.

(** C4: on the scenario's data set the resolver, the aggregator and the
    join give the expected document, and [main] writes it and exits with
    status 0. *)
Theorem scenario_document :
  document <$> load_all scenario_fs =
    Some ("# x" +:+ LF +:+ "DOMAIN,bar.com" +:+ LF +:+ LF +:+ "# others"
          +:+ LF +:+ "DOMAIN-SUFFIX,foo.com")
  ∧ build <$> load_all scenario_fs =
      Some ["# x"; "DOMAIN,bar.com"; ""; "# others"; "DOMAIN-SUFFIX,foo.com"]
  ∧ (written <$> main (OsEnv false ∅ scenario_fs Done Done)) =
      Some (document <$> load_all scenario_fs).
Proof. split; [|split]; by vm_compute. Qed.

(** ** The exit status *)

Lemma main_total (env : os_env) : is_Some (main env).
Proof.
  unfold main, load_all, load_run.
  destruct (load_loop_enough
              (if use_local env then local_files env else remote_files env)
              _ load_init (load_init_fuel _))
    as (st & Hrun & _).
  rewrite Hrun. cbn. eauto.
Qed.

(** A failure to write the file is logged and the process exits with 0. *)
Lemma main_write_failure (env : os_env) (e : string) :
  makedirs_result env = Done → write_result env = OSError e →
  ∃ r, main env = Some r ∧ result r = Exit 0 ∧ stderr r = [ErrorWriting e].
Proof.
  intros Hdir Hwrite. destruct (main_total env) as [r Hr]. exists r.
  split; [done|]. unfold main in Hr. rewrite Hdir, Hwrite in Hr.
  destruct (load_all _); [|discriminate]. cbn in Hr.
  by injection Hr as <-.
Qed.

(** C9 fails for the directory: [os.makedirs] is called outside the [try],
    so when it raises, [main] does not return: nothing is logged by the
    script and the exit status is not 0. *)
Theorem main_makedirs_failure (env : os_env) (e : string) :
  makedirs_result env = OSError e →
  ∃ r, main env = Some r ∧ result r = Uncaught e ∧ stderr r = []
       ∧ written r = None.
Proof.
  intros Hdir. destruct (main_total env) as [r Hr]. exists r.
  split; [done|]. unfold main in Hr. rewrite Hdir in Hr.
  destruct (load_all _); [|discriminate]. cbn in Hr.
  by injection Hr as <-.
Qed.

Lemma main_makedirs_failure_witness :
  ∃ r, main no_directory_env = Some r ∧ result r = Uncaught "FileExistsError"
       ∧ stderr r = [] ∧ written r = None.
Proof. exact (main_makedirs_failure no_directory_env "FileExistsError" eq_refl). Defined.

(** * Further properties *)

(** ** Trimming *)

Lemma rstrip_cons (c : ascii) (s : string) :
  rstrip (String c s) =
    match rstrip s with
    | EmptyString => if isspace c then EmptyString else String c EmptyString
    | r => String c r
    end.
Proof. reflexivity. Qed.

Lemma rstrip_idem (s : string) : rstrip (rstrip s) = rstrip s.
Proof.
  induction s as [|c s IH]; [done|]. rewrite rstrip_cons.
  destruct (rstrip s) as [|d r] eqn:Hr.
  - destruct (isspace c) eqn:Hc; [done|]. cbn [rstrip]. by rewrite Hc.
  - by rewrite rstrip_cons, IH.
Qed.

Lemma lstrip_begins (s : string) :
  lstrip s = "" ∨ ∃ c s', lstrip s = String c s' ∧ isspace c = false.
Proof.
  induction s as [|c s IH]; [by left|]. cbn [lstrip].
  destruct (isspace c) eqn:Hc; [done|]. right. by exists c, s.
Qed.

Lemma strip_idem (s : string) : strip (strip s) = strip s.
Proof.
  unfold strip. destruct (lstrip_begins s) as [->|(c & s' & -> & Hc)]; [done|].
  assert (∃ r, rstrip (String c s') = String c r) as [r Hr].
  { cbn [rstrip]. destruct (rstrip s'); [rewrite Hc|]; eauto. }
  rewrite Hr. cbn [lstrip]. rewrite Hc, <- Hr. apply rstrip_idem.
Qed.

Lemma lstrip_space (w s : string) : all_space w → lstrip (w +:+ s) = lstrip s.
Proof.
  induction w as [|c w IH]; intros Hw; [done|].
  change (String c w +:+ s) with (String c (w +:+ s)). cbn [lstrip].
  rewrite Hw by (by left). apply IH. intros d Hd. apply Hw. by right.
Qed.

Lemma lstrip_all_space (w : string) : all_space w → lstrip w = "".
Proof.
  induction w as [|c w IH]; intros Hw; [done|]. cbn [lstrip].
  rewrite Hw by (by left). apply IH. intros d Hd. apply Hw. by right.
Qed.

Lemma rstrip_app_space (s w : string) : all_space w → rstrip (s +:+ w) = rstrip s.
Proof.
  intros Hw. induction s as [|c s IH]; [by apply rstrip_space|].
  change (String c s +:+ w) with (String c (s +:+ w)). cbn [rstrip].
  by rewrite IH.
Qed.

Lemma strip_app_space (s w : string) : all_space w → strip (s +:+ w) = strip s.
Proof.
  intros Hw. unfold strip. induction s as [|c s IH].
  - change ("" +:+ w) with w. by rewrite lstrip_all_space.
  - change (String c s +:+ w) with (String c (s +:+ w)). cbn [lstrip].
    destruct (isspace c); [done|].
    change (String c (s +:+ w)) with (String c s +:+ w).
    by apply rstrip_app_space.
Qed.

Lemma strip_padded (w1 s w2 : string) :
  all_space w1 → all_space w2 → strip (w1 +:+ s +:+ w2) = strip s.
Proof.
  intros H1 H2. unfold strip at 1. rewrite lstrip_space by done.
  by apply strip_app_space.
Qed.

(** ** The rules [transform] gives *)

Lemma excluded_full (rest : string) :
  contains EXCLUDED (lower ("full:" +:+ rest)) = contains EXCLUDED (lower rest).
Proof. reflexivity. Qed.

Lemma excluded_rule (v : string) :
  contains EXCLUDED (lower ("DOMAIN," +:+ v)) = contains EXCLUDED (lower v)
  ∧ contains EXCLUDED (lower ("DOMAIN-SUFFIX," +:+ v))
    = contains EXCLUDED (lower v)
  ∧ contains EXCLUDED (lower ("DOMAIN-KEYWORD," +:+ v))
    = contains EXCLUDED (lower v).
Proof. by repeat split. Qed.

Lemma transform_value (line r : string) :
  transform line = Some r →
  ∃ v, strip v = v
       ∧ contains EXCLUDED (lower v) = false
       ∧ ((∃ rest, strip line = "full:" +:+ rest ∧ v = strip rest)
          ∨ v = strip line ∧ v ≠ "")
       ∧ (r = "DOMAIN," +:+ v ∧ contains "." v = true
          ∨ r = "DOMAIN-SUFFIX," +:+ v ∧ contains "." v = true
          ∨ r = "DOMAIN-KEYWORD," +:+ v ∧ contains "." v = false).
Proof.
  unfold transform.
  destruct (is_empty (strip line)) eqn:He; [done|].
  destruct (startswith (strip line) "#"); [done|]. cbn [orb].
  destruct (startswith (strip line) "include:"); [done|].
  destruct (startswith (strip line) "regexp:"); [done|].
  destruct (contains EXCLUDED (lower (strip line))) eqn:Hex; [done|].
  destruct (startswith (strip line) "full:") eqn:Hfull.
  - apply startswith_spec in Hfull as [rest Hrest]. rewrite Hrest in Hex |- *.
    change (item1 (split1 ":" ("full:" +:+ rest))) with rest.
    rewrite excluded_full, <- excluded_strip in Hex.
    intros Hr. exists (strip rest).
    split; [apply strip_idem|]. split; [done|]. split; [by left; exists rest|].
    destruct (contains "." (strip rest)); injection Hr as <-; auto.
  - intros Hr. exists (strip line).
    split; [apply strip_idem|]. split; [done|].
    split; [right; split; [done | by apply is_empty_false]|].
    destruct (contains "." (strip line)); injection Hr as <-; auto.
Qed.

(** X1: every rule [transform] gives is one of [DOMAIN,<v>],
    [DOMAIN-SUFFIX,<v>], [DOMAIN-KEYWORD,<v>] where the value [v] is trimmed
    and does not mention the excluded name in any letter case; the first two
    exactly when [v] holds a dot. *)
Theorem transform_output (line r : string) :
  transform line = Some r →
  ∃ v, strip v = v
       ∧ contains EXCLUDED (lower v) = false
       ∧ (r = "DOMAIN," +:+ v ∧ contains "." v = true
          ∨ r = "DOMAIN-SUFFIX," +:+ v ∧ contains "." v = true
          ∨ r = "DOMAIN-KEYWORD," +:+ v ∧ contains "." v = false).
Proof.
  intros (v & ? & ? & _ & ?)%transform_value. by exists v.
Qed.

Lemma transform_output_witness :
  ∃ v, strip v = v
       ∧ contains EXCLUDED (lower v) = false
       ∧ ("DOMAIN,a.b" = "DOMAIN," +:+ v ∧ contains "." v = true
          ∨ "DOMAIN,a.b" = "DOMAIN-SUFFIX," +:+ v ∧ contains "." v = true
          ∨ "DOMAIN,a.b" = "DOMAIN-KEYWORD," +:+ v ∧ contains "." v = false).
Proof. exact (transform_output " full: a.b " "DOMAIN,a.b" eq_refl). Defined.

(** X2: white space around a line never changes what [transform] gives. *)
Theorem transform_padded (w1 line w2 : string) :
  all_space w1 → all_space w2 →
  transform (w1 +:+ line +:+ w2) = transform line.
Proof.
  intros H1 H2. unfold transform. by rewrite strip_padded.
Qed.

Lemma transform_padded_witness :
  transform (" " +:+ "full:a.b" +:+ String "009" " ") = transform "full:a.b".
Proof.
  apply transform_padded; intros c Hc; apply list_elem_of_In in Hc; cbn in Hc.
  - by destruct Hc as [<-|[]].
  - by destruct Hc as [<-|[<-|[]]].
Defined.

(** ** What the resolver visits *)

Section Reach.

Variable fs : gmap string string.

Lemma scan_line_keeps (vis : gset string) (q : list string) (line x : string) :
  x ∈ q → x ∈ scan_line vis q line.
Proof.
  intros Hx. unfold scan_line. repeat case_match; try done.
  apply elem_of_app. by left.
Qed.

Lemma scan_keeps (vis : gset string) (lines q : list string) (x : string) :
  x ∈ q → x ∈ scan vis lines q.
Proof.
  revert q. induction lines as [|line lines IH]; intros q Hx; [done|].
  cbn [scan]. by apply IH, scan_line_keeps.
Qed.

(** The scan misses no directive: its value is queued unless it is empty,
    excluded or visited. *)
Lemma scan_complete (vis : gset string) (lines q : list string)
    (line inc : string) :
  line ∈ lines →
  startswith (strip line) "include:" = true →
  inc = strip (item1 (split1 ":" (strip line))) →
  inc ≠ "" → contains EXCLUDED (lower inc) = false →
  inc ∈ vis ∨ inc ∈ scan vis lines q.
Proof.
  intros Hline Hinc -> Hne Hex. revert q.
  induction lines as [|l lines IH]; intros q; [by apply elem_of_nil in Hline|].
  apply elem_of_cons in Hline as [<-|Hline]; [|by apply IH].
  destruct (decide (strip (item1 (split1 ":" (strip line))) ∈ vis)) as [|Hvis];
    [by left|].
  right. cbn [scan]. apply scan_keeps. unfold scan_line.
  apply is_empty_false in Hne.
  rewrite Hinc, Hne, Hex, bool_decide_eq_true_2 by done.
  apply elem_of_app. right. by apply list_elem_of_singleton.
Qed.

Lemma load_init_reach : reach_inv fs load_init.
Proof.
  split; [|split]; cbn.
  - intros n [Hn|Hn%list_elem_of_singleton]; [set_solver|].
    subst. apply reach_root.
  - right. by apply list_elem_of_singleton.
  - intros m inc Hm. set_solver.
Qed.

Lemma load_loop_reach (fuel : nat) (st st' : loader) :
  load_loop fs fuel st = Some st' → reach_inv fs st →
  reach_inv fs st' ∧ queue st' = [].
Proof.
  revert st. induction fuel as [|fuel IH]; intros [q vis c r]; cbn.
  - destruct q; [|discriminate]. by intros [= <-].
  - destruct q as [|name rest]; [by intros [= <-]|].
    case_bool_decide as Hvis; intros Hrun (Hreach & Hroot & Hclosed);
      apply (IH _ Hrun); cbn in *.
    + split; [|split].
      * intros n [Hn|Hn]; apply Hreach; [by left | right; by right].
      * destruct Hroot as [?|[->|?]%elem_of_cons]; auto.
      * intros m inc Hm Hinc.
        destruct (Hclosed m inc Hm Hinc) as [?|[->|?]%elem_of_cons]; auto.
    + assert (reachable fs name) as Hname by (apply Hreach; right; by left).
      split; [|split].
      * intros n [[->%elem_of_singleton|Hn]%elem_of_union|Hn]; [done|auto|].
        apply scan_elem in Hn as [Hn|(Hne & Hex & _ & line & Hl & Hi & ->)].
        -- apply Hreach. right. by right.
        -- apply (reach_step fs name); [done|]. by exists line.
      * destruct Hroot as [?|[->|?]%elem_of_cons]; [left|left|right].
        -- set_solver.
        -- set_solver.
        -- by apply scan_keeps.
      * intros m inc [->%elem_of_singleton|Hm]%elem_of_union Hinc.
        -- destruct Hinc as (line & Hl & Hi & -> & Hne & Hex).
           by eapply scan_complete.
        -- destruct (Hclosed m inc Hm Hinc) as [?|[->|?]%elem_of_cons].
           ++ left. set_solver.
           ++ left. set_solver.
           ++ right. by apply scan_keeps.
Qed.

Lemma load_run_visits (st : loader) :
  load_run fs = Some st → ∀ name, name ∈ seen st ↔ reachable fs name.
Proof.
  intros Hrun name.
  destruct (load_loop_reach _ _ _ Hrun load_init_reach)
    as [(Hreach & Hroot & Hclosed) Hq].
  rewrite Hq in Hroot, Hclosed. split; [auto|].
  induction 1 as [|m inc _ IH Hinc].
  - by destruct Hroot as [?|?%elem_of_nil].
  - by destruct (Hclosed m inc IH Hinc) as [?|?%elem_of_nil].
Qed.

Lemma load_all_contents (c : gmap string string) :
  load_all fs = Some c →
  (∀ name, is_Some (c !! name) ↔ reachable fs name)
  ∧ (∀ name txt, c !! name = Some txt → txt = read_source fs name).
Proof.
  unfold load_all. destruct (load_run fs) as [st|] eqn:Hrun; [|done].
  intros [= <-].
  pose proof (load_loop_inv _ _ _ _ Hrun (load_init_inv fs)) as (_ & _ & Hc).
  split.
  - intros name. rewrite <- (load_run_visits st Hrun name), Hc.
    case_bool_decide; split; (done || by intros [? ?] || eauto).
  - intros name txt. rewrite Hc. case_bool_decide; congruence.
Qed.

(** X3: the file map [load_all] returns has an entry exactly for the names
    the root leads to through include directives with a non-empty,
    non-excluded value (the root among them), and each entry is the text the
    Source Reader gives for its name. *)
Theorem load_all_reachable (c : gmap string string) :
  load_all fs = Some c →
  (∀ name, is_Some (c !! name) ↔ reachable fs name)
  ∧ (∀ name txt, c !! name = Some txt → txt = read_source fs name).
Proof. apply load_all_contents. Qed.

End Reach.

Lemma load_all_reachable_witness :
  (∀ name, is_Some (default ∅ (load_all traversal_fs) !! name)
           ↔ reachable traversal_fs name)
  ∧ (∀ name txt, default ∅ (load_all traversal_fs) !! name = Some txt →
                 txt = read_source traversal_fs name).
Proof.
  apply (load_all_reachable traversal_fs (default ∅ (load_all traversal_fs))).
  by vm_compute.
Defined.

(** ** The lines of the document *)

Lemma foldl_out {A} (P : string → Prop) (f : writer → A → writer)
    (l : list A) (w : writer) :
  (∀ w x, x ∈ l → Forall P (out_lines w) → Forall P (out_lines (f w x))) →
  Forall P (out_lines w) → Forall P (out_lines (foldl f w l)).
Proof.
  revert w. induction l as [|x l IH]; intros w Hf Hw; [done|].
  cbn [foldl]. apply IH.
  - intros w' y Hy. apply Hf. by right.
  - apply Hf; [by left | done].
Qed.

Lemma emit_out (P : string → Prop) (w : writer) (line : string) :
  (∀ t, transform line = Some t → P t) →
  Forall P (out_lines w) → Forall P (out_lines (emit w line)).
Proof.
  intros Ht Hw. unfold emit. destruct (transform line) as [t|]; [|done].
  case_match; [|done]. cbn. apply Forall_app. split; [done|].
  apply Forall_singleton. by apply Ht.
Qed.

Lemma append_line_out (P : string → Prop) (w : writer) (s : string) :
  P s → Forall P (out_lines w) → Forall P (out_lines (append_line w s)).
Proof.
  intros Hs Hw. cbn. apply Forall_app. split; [done|].
  by apply Forall_singleton.
Qed.

Lemma emit_own_out (P : string → Prop) (w : writer) (line : string) :
  (∀ t, transform line = Some t → P t) →
  Forall P (out_lines w) → Forall P (out_lines (emit_own w line)).
Proof.
  intros Ht Hw. unfold emit_own. case_match; [done | by apply emit_out].
Qed.

(** Every line of the document is blank, a header of a name with an entry,
    the last header, or a rule. *)
Lemma build_lines (contents : gmap string string) :
  Forall (document_line contents) (build contents).
Proof.
  unfold build, pass2, pass1.
  apply foldl_out.
  { intros w line _. apply emit_own_out. intros t Ht. do 3 right. eauto. }
  apply append_line_out; [right; by left|].
  apply foldl_out; [|apply Forall_nil_2].
  intros w inc _ Hw. unfold emit_block.
  destruct (contents !! inc) as [txt|] eqn:Hinc; [|done].
  apply append_line_out; [by left|]. apply foldl_out.
  { intros w' line _. apply emit_out. intros t Ht. do 3 right. eauto. }
  apply append_line_out; [|done].
  right; right; left. exists inc. by rewrite Hinc.
Qed.

Lemma reachable_name (fs : gmap string string) (name : string) :
  reachable fs name →
  name = START ∨ (name ≠ "" ∧ contains EXCLUDED (lower name) = false).
Proof.
  destruct 1 as [|m inc _ (line & _ & _ & _ & ? & ?)]; [by left | by right].
Qed.

(** X4: whatever the data set holds, no line of the document built from
    what [load_all] returns mentions the excluded name, in any letter case:
    neither a rule nor a block header. *)
Theorem document_never_excluded (fs c : gmap string string) (s : string) :
  load_all fs = Some c → s ∈ build c →
  contains EXCLUDED (lower s) = false.
Proof.
  intros [Hdom _]%load_all_contents Hs.
  pose proof (build_lines c) as Hlines. rewrite Forall_forall in Hlines.
  destruct (Hlines s Hs) as [->|[->|[(inc & Hinc & ->)|(line & Ht)]]];
    [done | done | |].
  - apply Hdom, reachable_name in Hinc as [->|[_ Hex]]; [done|].
    exact Hex.
  - apply transform_value in Ht as (v & _ & Hex & _ & Hr).
    destruct (excluded_rule v) as (H1 & H2 & H3).
    destruct Hr as [[-> _]|[[-> _]|[-> _]]]; congruence.
Qed.

Lemma document_never_excluded_witness :
  contains EXCLUDED (lower "# A") = false.
Proof.
  apply (document_never_excluded traversal_fs
           (default ∅ (load_all traversal_fs)) "# A"); vm_compute;
    [done | by left].
Defined.

(** ** The blocks of a resolved run *)

Lemma include_order_elem (lines : list string) (inc : string) :
  inc ∈ include_order_of lines ↔
  ∃ line, line ∈ lines ∧ startswith (strip line) "include:" = true
          ∧ inc = strip (item1 (split1 ":" (strip line))) ∧ inc ≠ "".
Proof.
  induction lines as [|l lines IH]; cbn [include_order_of].
  - split; [by intros ?%elem_of_nil | by intros (? & ?%elem_of_nil & _)].
  - destruct (startswith (strip l) "include:") eqn:Hl;
      [destruct (is_empty (strip (item1 (split1 ":" (strip l))))) eqn:He|];
      rewrite ?elem_of_cons, IH; split.
    + intros (line & ? & ?). exists line. split; [by right | done].
    + intros (line & [->|?]%elem_of_cons & Hi & -> & Hne); [|by exists line].
      by apply is_empty_false in Hne; congruence.
    + intros [->|(line & ? & ?)].
      * exists l. split; [by left|]. split; [done|]. split; [done|].
        by apply is_empty_false.
      * exists line. split; [by right | done].
    + intros (line & [->|?]%elem_of_cons & Hi & -> & Hne); [by left|].
      right. by exists line.
    + intros (line & ? & ?). exists line. split; [by right | done].
    + intros (line & [->|?]%elem_of_cons & Hi & -> & Hne); [congruence|].
      by exists line.
Qed.





(** ** Files the root does not name *)

Lemma foldl_ext_in {A B} (f g : A → B → A) (l : list B) (a : A) :
  (∀ a x, x ∈ l → f a x = g a x) → foldl f a l = foldl g a l.
Proof.
  revert a. induction l as [|x l IH]; intros a Hfg; [done|].
  cbn [foldl]. rewrite Hfg by (by left). apply IH.
  intros a' y Hy. apply Hfg. by right.
Qed.

(** X6: the document depends on the root file and on the files the root
    file itself includes, and on nothing else of the file map: the files
    [load_all] reads only because an included file includes them add
    nothing. *)
Theorem build_direct_includes (c c' : gmap string string) :
  c !! START = c' !! START →
  (∀ inc, inc ∈ include_order_of (splitlines (default "" (c !! START))) →
          c !! inc = c' !! inc) →
  build c = build c'.
Proof.
  intros Hroot Hinc. unfold build, pass1. rewrite <- Hroot. do 2 f_equal.
  apply foldl_ext_in. intros w inc Hin. unfold emit_block.
  by rewrite (Hinc inc Hin).
Qed.

Lemma build_direct_includes_witness :
  build (default ∅ (load_all nested_fs))
  = build (delete "D" (default ∅ (load_all nested_fs))).
Proof.
  apply build_direct_includes; [by vm_compute|].
  assert (include_order_of
            (splitlines (default "" (default ∅ (load_all nested_fs) !! START)))
          = ["A"]) as -> by (by vm_compute).
  intros inc ->%list_elem_of_singleton. by vm_compute.
Defined.

Example nested_document :
  is_Some (default ∅ (load_all nested_fs) !! "D")
  ∧ build (default ∅ (load_all nested_fs)) =
      ["# A"; "DOMAIN-SUFFIX,a.example"; ""; "# others";
       "DOMAIN-SUFFIX,root.example"].
Proof. split; [by vm_compute; eauto | by vm_compute]. Qed.

(** ** The rules of the document *)

Lemma writer_rules_iff (w : writer) (T T' : string → Prop) :
  (∀ r, T r ↔ T' r) → writer_rules w T → writer_rules w T'.
Proof. intros HT Hw r. rewrite <- HT. apply Hw. Qed.

Lemma emit_rules (w : writer) (T : string → Prop) (line : string) :
  writer_rules w T →
  writer_rules (emit w line) (λ r, T r ∨ transform line = Some r).
Proof.
  intros Hw. unfold emit. destruct (transform line) as [t|] eqn:Ht.
  - rewrite (transform_nonempty _ _ Ht). cbn [negb andb].
    pose proof (transform_is_rule _ _ Ht) as Hrule.
    case_bool_decide as Hnew.
    + intros r. unfold rule_lines. cbn [out_lines seen_rules].
      rewrite filter_app, filter_cons_True, filter_nil by done.
      rewrite elem_of_app, list_elem_of_singleton, elem_of_union,
        elem_of_singleton.
      destruct (Hw r) as [-> ->]. naive_solver.
    + apply (writer_rules_iff w T); [|done]. intros r. split; [auto|].
      intros [?|[= <-]]; [done|]. by apply Hw.
  - apply (writer_rules_iff w T); [|done]. intros r. split; [auto|].
    by intros [?|?].
Qed.

Lemma foldl_emit_rules (w : writer) (T : string → Prop) (lines : list string) :
  writer_rules w T →
  writer_rules (foldl emit w lines)
    (λ r, T r ∨ ∃ line, line ∈ lines ∧ transform line = Some r).
Proof.
  revert w T. induction lines as [|line lines IH]; intros w T Hw.
  - apply (writer_rules_iff w T); [|done]. intros r. split; [auto|].
    by intros [?|(? & ?%elem_of_nil & _)].
  - cbn [foldl]. eapply writer_rules_iff; [|apply IH, emit_rules, Hw].
    intros r. cbn beta. split.
    + intros [[?|?]|(l & ? & ?)]; [by left | right..].
      * exists line. split; [by left | done].
      * exists l. split; [by right | done].
    + intros [?|(l & [->|?]%elem_of_cons & ?)]; [by left; left | by left; right |].
      right. by exists l.
Qed.

Lemma append_line_rules (w : writer) (T : string → Prop) (s : string) :
  ¬ is_rule_line s → writer_rules w T → writer_rules (append_line w s) T.
Proof.
  intros Hs Hw r. unfold rule_lines, append_line. cbn [out_lines seen_rules].
  rewrite filter_app, filter_cons_False, filter_nil, app_nil_r by done.
  apply Hw.
Qed.

Lemma emit_block_rules (contents : gmap string string) (w : writer)
    (T : string → Prop) (inc : string) :
  writer_rules w T →
  writer_rules (emit_block contents w inc)
    (λ r, T r ∨ file_rule contents inc r).
Proof.
  intros Hw. unfold emit_block, file_rule.
  destruct (contents !! inc) as [txt|].
  - apply append_line_rules; [discriminate|].
    eapply writer_rules_iff;
      [|apply foldl_emit_rules, append_line_rules, Hw; apply header_not_rule].
    intros r. cbn beta. split.
    + intros [?|(line & ? & ?)]; [by left|]. right. by exists txt, line.
    + intros [?|(? & line & [= <-] & ? & ?)]; [by left|]. right. by exists line.
  - apply (writer_rules_iff w T); [|done]. intros r. split; [auto|].
    by intros [?|(? & ? & ? & _)].
Qed.

Lemma pass1_rules (contents : gmap string string) (w : writer)
    (T : string → Prop) (incs : list string) :
  writer_rules w T →
  writer_rules (foldl (emit_block contents) w incs)
    (λ r, T r ∨ ∃ inc, inc ∈ incs ∧ file_rule contents inc r).
Proof.
  revert w T. induction incs as [|inc incs IH]; intros w T Hw.
  - apply (writer_rules_iff w T); [|done]. intros r. split; [auto|].
    by intros [?|(? & ?%elem_of_nil & _)].
  - cbn [foldl].
    eapply writer_rules_iff; [|apply IH, emit_block_rules, Hw].
    intros r. cbn beta. split.
    + intros [[?|?]|(i & ? & ?)]; [by left | right..].
      * exists inc. split; [by left | done].
      * exists i. split; [by right | done].
    + intros [?|(i & [->|?]%elem_of_cons & ?)]; [by left; left | by left; right |].
      right. by exists i.
Qed.

(** The second loop needs no test of its own: [transform] drops the
    include lines. *)
Lemma emit_own_emit (w : writer) (line : string) : emit_own w line = emit w line.
Proof.
  unfold emit_own, emit, transform.
  destruct (startswith (strip line) "include:"); [|done].
  by destruct (is_empty (strip line) || startswith (strip line) "#").
Qed.

(** X7: the rule lines of the document are exactly the rules [transform]
    gives for the lines of the root file and of the files the root file
    includes (those with an entry in the file map): none is lost and none
    is made up. *)
Theorem document_rules (contents : gmap string string) (r : string) :
  r ∈ rule_lines (build contents) ↔
  file_rule contents START r
  ∨ ∃ inc, inc ∈ include_order_of
                   (splitlines (default "" (contents !! START)))
           ∧ file_rule contents inc r.
Proof.
  unfold build, pass2, pass1.
  rewrite (foldl_ext_in emit_own emit) by (intros; apply emit_own_emit).
  assert (writer_rules (Writer [] ∅) (λ _, False)) as Hinit.
  { intros x. cbn. split; [by rewrite elem_of_nil | set_solver]. }
  pose proof (foldl_emit_rules _ _
                (splitlines (default "" (contents !! START)))
                (append_line_rules _ _ "# others" ltac:(discriminate)
                   (pass1_rules contents _ _
                      (include_order_of
                         (splitlines (default "" (contents !! START))))
                      Hinit))) as Hfinal.
  rewrite (proj1 (Hfinal r)). unfold file_rule. split.
  - intros [[[]|?]|(line & ? & ?)]; [by right|]. left.
    destruct (contents !! START) as [txt|]; [by exists txt, line|].
    by apply elem_of_nil in H.
  - intros [(txt & line & Hroot & ? & ?)|?]; [|by left; right].
    right. exists line. by rewrite Hroot.
Qed.

(** X11: the test for include lines in the second loop changes nothing:
    [transform] drops those lines itself, so pass 2 is the fold of the
    plain emit step over the lines of the root file. *)
Theorem pass2_include_test (w : writer) (main_txt : string) :
  pass2 w main_txt =
    foldl emit (append_line w "# others") (splitlines main_txt).
Proof.
  unfold pass2. apply foldl_ext_in. intros w' line _. apply emit_own_emit.
Qed.

(** ** The written text, read back *)

Lemma chars_app (a b : string) : chars (a +:+ b) = chars a ++ chars b.
Proof.
  induction a as [|x a IH]; [done|].
  change (chars (String x a +:+ b)) with (x :: chars (a +:+ b)).
  by rewrite IH.
Qed.

Lemma no_linebreak_cons (c : ascii) (s : string) :
  no_linebreak (String c s) ↔ is_linebreak c = false ∧ no_linebreak s.
Proof.
  unfold no_linebreak. change (chars (String c s)) with (c :: chars s). split.
  - intros H. split; [apply H; by left | intros d Hd; apply H; by right].
  - intros [Hc Hs] d [->|Hd]%elem_of_cons; auto.
Qed.

Lemma no_linebreak_app (a b : string) :
  no_linebreak a → no_linebreak b → no_linebreak (a +:+ b).
Proof.
  intros Ha Hb c. rewrite chars_app. intros [?|?]%elem_of_app; auto.
Qed.

Lemma lstrip_chars (s : string) (c : ascii) :
  c ∈ chars (lstrip s) → c ∈ chars s.
Proof.
  induction s as [|a s IH]; [done|]. cbn [lstrip].
  destruct (isspace a); [|done]. intros Hc%IH.
  change (chars (String a s)) with (a :: chars s). by right.
Qed.

Lemma rstrip_chars (s : string) (c : ascii) :
  c ∈ chars (rstrip s) → c ∈ chars s.
Proof.
  induction s as [|a s IH]; [done|]. rewrite rstrip_cons.
  change (chars (String a s)) with (a :: chars s).
  destruct (rstrip s) as [|d r].
  - destruct (isspace a); [by intros ?%elem_of_nil|].
    intros [->|?%elem_of_nil]%elem_of_cons; [by left | done].
  - intros [->|Hc]%elem_of_cons; [by left | right; auto].
Qed.

Lemma strip_no_linebreak (s : string) : no_linebreak s → no_linebreak (strip s).
Proof. intros Hs c Hc. by apply Hs, lstrip_chars, rstrip_chars. Qed.

Lemma item1_chars (sep : ascii) (s : string) (c : ascii) :
  c ∈ chars (item1 (split1 sep s)) → c ∈ chars s.
Proof.
  induction s as [|a s IH]; [by intros ?%elem_of_nil|]. cbn [split1].
  change (chars (String a s)) with (a :: chars s).
  destruct (Ascii.eqb a sep); [by right|].
  destruct (split1 sep s) as [|h t]; [by intros ?%elem_of_nil|].
  intros Hc. right. by apply IH.
Qed.

Lemma include_value_no_linebreak (line : string) :
  no_linebreak line →
  no_linebreak (strip (item1 (split1 ":" (strip line)))).
Proof.
  intros Hl. apply strip_no_linebreak. intros c Hc%item1_chars.
  by apply (strip_no_linebreak line Hl).
Qed.

Lemma no_linebreak_empty : no_linebreak "".
Proof. by intros c ?%elem_of_nil. Qed.

Lemma splitlines_no_linebreak (s l : string) :
  l ∈ splitlines s → no_linebreak l.
Proof.
  revert l. induction s as [|c s IH]; intros l; [by intros ?%elem_of_nil|].
  cbn [splitlines]. destruct (is_linebreak c) eqn:Hc.
  - destruct s as [|d s''].
    { intros [->|?%elem_of_nil]%elem_of_cons; [apply no_linebreak_empty|done]. }
    destruct (_ && _) eqn:Hcrlf;
      intros [->|Hl]%elem_of_cons; [apply no_linebreak_empty| |
                                     apply no_linebreak_empty|auto].
    apply IH. apply andb_true_iff in Hcrlf as [_ ->%Ascii.eqb_eq].
    cbn [splitlines]. change (is_linebreak "010") with true. cbn iota.
    destruct s''; [by apply elem_of_nil in Hl | by right].
  - destruct (splitlines s) as [|l0 ls]; intros [->|Hl]%elem_of_cons.
    + apply no_linebreak_cons. split; [done | apply no_linebreak_empty].
    + by apply elem_of_nil in Hl.
    + apply no_linebreak_cons. split; [done|]. apply IH. by left.
    + apply IH. by right.
Qed.

Lemma transform_no_linebreak (line r : string) :
  no_linebreak line → transform line = Some r → no_linebreak r.
Proof.
  intros Hl (v & _ & _ & Hv & Hr)%transform_value.
  assert (no_linebreak v) as Hnl.
  { destruct Hv as [(rest & Hrest & ->)|[-> _]];
      [|by apply strip_no_linebreak].
    apply strip_no_linebreak. intros c Hc.
    apply (strip_no_linebreak line Hl). rewrite Hrest, chars_app.
    apply elem_of_app. by right. }
  destruct Hr as [[-> _]|[[-> _]|[-> _]]]; (apply no_linebreak_app; [|done]);
    intros c Hc; apply list_elem_of_In in Hc; cbn in Hc;
    repeat (destruct Hc as [<-|Hc]; [done|]); done.
Qed.

Lemma build_no_linebreak (contents : gmap string string) :
  Forall no_linebreak (build contents).
Proof.
  unfold build, pass2, pass1.
  apply foldl_out.
  { intros w line Hline. apply emit_own_out. intros t.
    apply transform_no_linebreak. by eapply splitlines_no_linebreak. }
  apply append_line_out.
  { intros c Hc. apply list_elem_of_In in Hc. cbn in Hc.
    repeat (destruct Hc as [<-|Hc]; [done|]). done. }
  apply foldl_out; [|apply Forall_nil_2].
  intros w inc Hinc Hw. unfold emit_block.
  destruct (contents !! inc) as [txt|]; [|done].
  apply append_line_out; [apply no_linebreak_empty|]. apply foldl_out.
  { intros w' line Hline. apply emit_out. intros t.
    apply transform_no_linebreak. by eapply splitlines_no_linebreak. }
  apply append_line_out; [|done].
  apply include_order_elem in Hinc as (line & Hline & _ & -> & _).
  apply (no_linebreak_app "# ").
  - intros c Hc. apply list_elem_of_In in Hc. cbn in Hc.
    repeat (destruct Hc as [<-|Hc]; [done|]). done.
  - apply include_value_no_linebreak. by eapply splitlines_no_linebreak.
Qed.

Lemma foldl_keeps {A} (I : writer → Prop) (f : writer → A → writer)
    (l : list A) (w : writer) :
  (∀ w x, I w → I (f w x)) → I w → I (foldl f w l).
Proof.
  intros Hf. revert w. induction l as [|x l IH]; intros w Hw; [done|].
  cbn [foldl]. by apply IH, Hf.
Qed.

(** The document ends with [# others] or with a rule, never with a blank
    line. *)
Lemma build_last (contents : gmap string string) :
  ∃ x, last (build contents) = Some x ∧ x ≠ "".
Proof.
  unfold build, pass2.
  apply (foldl_keeps (λ w, ∃ x, last (out_lines w) = Some x ∧ x ≠ "")).
  - intros w line (x & Hx & Hne). rewrite emit_own_emit. unfold emit.
    destruct (transform line) as [t|] eqn:Ht; [|by exists x].
    case_match; [|by exists x]. exists t. cbn [out_lines].
    rewrite last_snoc. split; [done|].
    by apply is_empty_false, (transform_nonempty line).
  - exists "# others". cbn [append_line out_lines]. by rewrite last_snoc.
Qed.

Lemma splitlines_one (p : string) :
  no_linebreak p → p ≠ "" → splitlines p = [p].
Proof.
  induction p as [|c p IH]; [done|].
  intros [Hc Hp]%no_linebreak_cons _. cbn [splitlines]. rewrite Hc.
  destruct p as [|d p]; [done|]. by rewrite IH.
Qed.

Lemma splitlines_line (p rest : string) :
  no_linebreak p → rest ≠ "" →
  splitlines (p +:+ LF +:+ rest) = p :: splitlines rest.
Proof.
  intros Hp Hrest. induction p as [|c p IH].
  - destruct rest as [|d rest]; [done|]. reflexivity.
  - apply no_linebreak_cons in Hp as [Hc Hp].
    change (String c p +:+ LF +:+ rest) with (String c (p +:+ LF +:+ rest)).
    cbn [splitlines]. by rewrite Hc, IH.
Qed.

Lemma join_empty (ls : list string) :
  join LF ls = "" → ls = [] ∨ ls = [""].
Proof.
  destruct ls as [|p [|q ls]]; cbn [join]; [by left | by right; subst |].
  intros H. apply (f_equal chars) in H. rewrite chars_app in H.
  by destruct (chars p).
Qed.

(** Lines without a line boundary, the last one not blank, come back from
    the joined text. *)
Lemma splitlines_join (ls : list string) :
  Forall no_linebreak ls → last ls ≠ Some "" →
  splitlines (join LF ls) = ls.
Proof.
  induction ls as [|p ls IH]; [done|]. intros [Hp Hls]%Forall_cons Hlast.
  destruct ls as [|q ls].
  - cbn [join]. apply splitlines_one; [done|]. by intros ->.
  - change (join LF (p :: q :: ls)) with (p +:+ LF +:+ join LF (q :: ls)).
    rewrite splitlines_line, IH; [done..| |done |].
    + by rewrite last_cons_cons in Hlast.
    + intros [?|[= -> ->]]%join_empty; [done|]. by cbn in Hlast.
Qed.

(** X8: read back line by line, the text [main] writes is the list of
    lines it built: no header or rule holds a line boundary and the text
    does not end in a blank line, so the file has as many lines as [main]
    reports. *)
Theorem document_lines (contents : gmap string string) :
  splitlines (document contents) = build contents
  ∧ length (splitlines (document contents)) = length (build contents).
Proof.
  assert (splitlines (document contents) = build contents) as H.
  { unfold document. apply splitlines_join; [apply build_no_linebreak|].
    destruct (build_last contents) as (x & -> & Hx). congruence. }
  by rewrite H.
Qed.

(** ** A root file that cannot be read *)

Lemma load_loop_done (fs : gmap string string) (fuel : nat)
    (vis : gset string) (c : gmap string string) (r : list string) :
  load_loop fs fuel (Loader [] vis c r) = Some (Loader [] vis c r).
Proof. by destruct fuel. Qed.

(** X9: when the Source Reader gives nothing for the root file (missing
    file, failed fetch, empty file), [load_all] returns the root alone with
    empty text, whatever else the data set holds, and the document is the
    single line [# others]. *)
Theorem empty_root (fs : gmap string string) :
  read_source fs START = "" →
  load_all fs = Some {[ START := "" ]}
  ∧ build <$> load_all fs = Some ["# others"]
  ∧ document <$> load_all fs = Some "# others".
Proof.
  intros Hroot.
  assert (load_all fs = Some {[ START := "" ]}) as ->; [|by vm_compute].
  unfold load_all, load_run, load_fuel.
  change (1 + pending fs (dom fs)) with (S (pending fs (dom fs))).
  cbn [load_loop load_init queue seen contents reads].
  rewrite bool_decide_eq_false_2 by set_solver. rewrite Hroot.
  cbn [splitlines scan app]. rewrite load_loop_done. cbn.
  by rewrite insert_empty.
Qed.

Lemma empty_root_witness :
  load_all {[ "x" := "a.example" ]} = Some {[ START := "" ]}
  ∧ build <$> load_all {[ "x" := "a.example" ]} = Some ["# others"]
  ∧ document <$> load_all {[ "x" := "a.example" ]} = Some "# others".
Proof. exact (empty_root {[ "x" := "a.example" ]} eq_refl). Defined.

(** ** The exit status, once the directory is there *)


